(** * Correction Differ of mBARTapi/main.py

    A shallow embedding of the two helpers [highlight_errors] and
    [get_corrections] of [src/mBARTapi/main.py], together with the Python
    built-ins they call ([str.split], [zip], [str.join], the f-string, list
    [append] and dict item assignment), and the properties the
    specification states about them.

    A Python [str] is an immutable sequence of Unicode code points; it is
    modelled as a list of code points (numbers of type [N]).  String
    literals of the source are written [s "..."]. *)

From Stdlib Require Import NArith Ascii String.
From stdpp Require Import gmap list.

Abbreviation str := (list N).

(** ** Python built-ins *)

(** A literal of the source (all of them are ASCII) as a [str]. *)
Definition s (lit : string) : str := map N_of_ascii (list_ascii_of_string lit).

(** [ch.isspace()] for one code point, as [str.split()] uses it: the ASCII
    table of CPython (TAB..CR, FS..US, SPACE) and the Unicode white space
    property above it. *)
Definition between (lo hi ch : N) : bool := (lo <=? ch)%N && (ch <=? hi)%N.

Definition isspace (ch : N) : bool :=
  between 0x09 0x0D ch || between 0x1C 0x20 ch
  || (ch =? 0x85)%N || (ch =? 0xA0)%N || (ch =? 0x1680)%N
  || between 0x2000 0x200A ch
  || (ch =? 0x2028)%N || (ch =? 0x2029)%N || (ch =? 0x202F)%N
  || (ch =? 0x205F)%N || (ch =? 0x3000)%N.

(** [text.split()] with no separator: runs of white space separate the
    tokens, leading and trailing white space is dropped.  [word] is the
    token being read (empty between tokens). *)
Fixpoint split_from (word : str) (text : str) : list str :=
  match text with
  | [] => match word with [] => [] | _ => [word] end
  | ch :: rest =>
      if isspace ch
      then match word with
           | [] => split_from [] rest
           | _ => word :: split_from [] rest
           end
      else split_from (word ++ [ch]) rest
  end.

Definition split (text : str) : list str := split_from [] text.

(** [sep.join(parts)]. *)
Fixpoint join (sep : str) (parts : list str) : str :=
  match parts with
  | [] => []
  | p :: ps => match ps with
               | [] => p
               | _ => p ++ sep ++ join sep ps
               end
  end.

(** [a != b] on two [str]: code point by code point, no case folding. *)
Definition str_ne (a b : str) : bool := bool_decide (a ≠ b).

(** ** The two helpers *)

(** The f-string of the [if] branch of [highlight_errors]. *)
Definition del_open : str := s "<del style='color:red;'>".
Definition del_close_span_open : str := s "</del> <span style='color:green;'>".
Definition span_close : str := s "</span>".

Definition marked (o_token c_token : str) : str :=
  del_open ++ o_token ++ del_close_span_open ++ c_token ++ span_close.

(** One iteration of the [for] loop of [highlight_errors]: [highlighted] is
    the list being appended to. *)
Definition highlight_body (highlighted : list str) (pair : str * str) : list str :=
  let '(o_token, c_token) := pair in
  if str_ne o_token c_token
  then highlighted ++ [marked o_token c_token]
  else highlighted ++ [o_token].

(** The list [highlighted] when the loop has ended. *)
Definition highlighted_list (original corrected : str) : list str :=
  let original_tokens := split original in
  let corrected_tokens := split corrected in
  fold_left highlight_body (zip original_tokens corrected_tokens) [].

Definition highlight_errors (original corrected : str) : str :=
  join (s " ") (highlighted_list original corrected).

(** One iteration of the [for] loop of [get_corrections]:
    [corrections[o_token] = c_token] inserts or overwrites. *)
Definition corrections_body (corrections : gmap str str) (pair : str * str)
  : gmap str str :=
  let '(o_token, c_token) := pair in
  if str_ne o_token c_token
  then <[o_token := c_token]> corrections
  else corrections.

Definition get_corrections (original corrected : str) : list str * gmap str str :=
  let original_tokens := split original in
  let corrected_tokens := split corrected in
  let corrections :=
    fold_left corrections_body (zip original_tokens corrected_tokens) ∅ in
  (corrected_tokens, corrections).

(** ** Vocabulary of the statements *)

(** A text without white space, and a token: a non-empty one. *)
Definition nonspace (t : str) : Prop := Forall (λ ch, isspace ch = false) t.
Definition is_token (t : str) : Prop := t ≠ [] ∧ nonspace t.

(** What one iteration of [highlight_errors] appends for a pair. *)
Definition fragment (pair : str * str) : str :=
  if str_ne pair.1 pair.2 then marked pair.1 pair.2 else pair.1.

(** The number of positions that [zip] pairs up. *)
Definition paired (original corrected : str) : nat :=
  length (split original) `min` length (split corrected).

(** In a list of pairs, no pair with first component [k] is a change. *)
Definition unchanged_in (l : list (str * str)) (k : str) : Prop :=
  ∀ j v', l !! j = Some (k, v') → k = v'.

(** [(k, v)] is the last pair of [l] that has first component [k] and two
    different components. *)
Definition last_change (l : list (str * str)) (k v : str) : Prop :=
  ∃ i, l !! i = Some (k, v) ∧ k ≠ v ∧
       ∀ j v', i < j → l !! j = Some (k, v') → k = v'.

(** Token [k] of the original is a changed one: at some position that
    both token sequences have, it faces a different corrected token. *)
Definition changed_token (original corrected k : str) : Prop :=
  ∃ i c, i < paired original corrected
         ∧ split original !! i = Some k ∧ split corrected !! i = Some c ∧ k ≠ c.

(** Token [k] of the original is rendered as removed by [highlight_errors]:
    the fragment emitted at its position is the marked one. *)
Definition rendered_removed (original corrected k : str) : Prop :=
  ∃ i c, split original !! i = Some k ∧ split corrected !! i = Some c
         ∧ highlighted_list original corrected !! i = Some (marked k c).

(** ** The same helpers with their objects on a heap

    Inside the helpers, [highlighted] is a list object that [append]
    mutates, [corrections] a dict object that the item assignment mutates,
    and [zip] walks the two token lists through list iterators that read
    the list objects again at every [next].  This module models that: the
    objects live in a store, every operation that Python can refuse raises,
    and the [for] loop runs on fuel (one unit per execution of its body). *)
Module Imp.

Definition loc := positive.

(** The objects of the store: lists of [str], dicts from [str] to [str],
    and every other object of the process (the application, the loaded
    models and tokenizers, the templates), of which only the identity
    matters here. *)
Inductive obj :=
| PyList (items : list str)
| PyDict (entries : gmap str str)
| PyOther (tag : N).

Abbreviation heap := (gmap loc obj).

Inductive outcome (A : Type) :=
| Ok (v : A) (h : heap)
| Raise
| OutOfFuel.
Arguments Ok {A} v h.
Arguments Raise {A}.
Arguments OutOfFuel {A}.

Definition M (A : Type) : Type := heap → outcome A.

#[global] Instance M_ret : MRet M := λ A (v : A) h, Ok v h.
#[global] Instance M_bind : MBind M := λ A B (k : A → M B) (m : M A) h,
  match m h with
  | Ok v h' => k v h'
  | Raise => Raise
  | OutOfFuel => OutOfFuel
  end.

(** A new object, at a location the store does not use yet. *)
Definition alloc (h : heap) (o : obj) : heap := <[fresh (dom h) := o]> h.

Definition new_object (o : obj) : M loc := λ h,
  Ok (fresh (dom h)) (alloc h o).

(** [lst.append(x)]. *)
Definition list_append (lst : loc) (x : str) : M unit := λ h,
  match h !! lst with
  | Some (PyList items) => Ok () (<[lst := PyList (items ++ [x])]> h)
  | _ => Raise
  end.

(** [d[k] = v]. *)
Definition dict_setitem (d : loc) (k v : str) : M unit := λ h,
  match h !! d with
  | Some (PyDict entries) => Ok () (<[d := PyDict (<[k := v]> entries)]> h)
  | _ => Raise
  end.

(** [text.split()] returns a new list. *)
Definition str_split (text : str) : M loc := new_object (PyList (split text)).

(** [sep.join(lst)] for a list object, whose items are all [str]; the
    helpers join nothing else, and anything else is refused here. *)
Definition str_join (sep : str) (lst : loc) : M str := λ h,
  match h !! lst with
  | Some (PyList items) => Ok (join sep items) h
  | _ => Raise
  end.

(** A list iterator: the list it walks and the index of its next item. *)
Record list_iter := { it_list : loc; it_index : nat }.

(** [next(it)]: [None] stands for StopIteration.  The iterator reads the
    list object again at every call; only iterators on lists occur. *)
Definition list_iter_next (it : list_iter) : M (option (str * list_iter)) := λ h,
  match h !! it_list it with
  | Some (PyList items) =>
      match items !! it_index it with
      | Some x => Ok (Some (x, {| it_list := it_list it; it_index := S (it_index it) |})) h
      | None => Ok None h
      end
  | _ => Raise
  end.

(** [zip(a, b)] holds an iterator on each list; its [next] asks the left
    one first and stops as soon as one of them stops. *)
Record zip_iter := { zip_left : list_iter; zip_right : list_iter }.

Definition py_zip (a b : loc) : zip_iter :=
  {| zip_left := {| it_list := a; it_index := 0 |};
     zip_right := {| it_list := b; it_index := 0 |} |}.

Definition zip_next (z : zip_iter) : M (option (str * str * zip_iter)) :=
  left ← list_iter_next (zip_left z);
  match left with
  | None => mret None
  | Some (x, left') =>
      right ← list_iter_next (zip_right z);
      match right with
      | None => mret None
      | Some (y, right') =>
          mret (Some (x, y, {| zip_left := left'; zip_right := right' |}))
      end
  end.

Definition out_of_fuel {A : Type} : M A := λ _, OutOfFuel.

(** [for x, y in z: body]. *)
Fixpoint for_zip (fuel : nat) (z : zip_iter) (body : str → str → M unit) : M unit :=
  item ← zip_next z;
  match item with
  | None => mret ()
  | Some (x, y, z') =>
      match fuel with
      | 0 => out_of_fuel
      | S fuel' => body x y;; for_zip fuel' z' body
      end
  end.

(** The store a run of the helpers leaves: three new objects, the two
    token lists and the list or dict the loop has filled. *)
Definition tokens_heap (h : heap) (original corrected : str) : heap :=
  alloc (alloc h (PyList (split original))) (PyList (split corrected)).

Definition highlight_heap (h : heap) (original corrected : str) : heap :=
  alloc (tokens_heap h original corrected)
        (PyList (highlighted_list original corrected)).

Definition corrections_heap (h : heap) (original corrected : str) : heap :=
  alloc (tokens_heap h original corrected)
        (PyDict (get_corrections original corrected).2).

Definition highlight_errors (fuel : nat) (original corrected : str) : M str :=
  original_tokens ← str_split original;
  corrected_tokens ← str_split corrected;
  highlighted ← new_object (PyList []);
  for_zip fuel (py_zip original_tokens corrected_tokens) (λ o_token c_token,
    if str_ne o_token c_token
    then list_append highlighted (marked o_token c_token)
    else list_append highlighted o_token);;
  str_join (s " ") highlighted.

(** The result is the pair of the two objects, as Python returns them. *)
Definition get_corrections (fuel : nat) (original corrected : str) : M (loc * loc) :=
  original_tokens ← str_split original;
  corrected_tokens ← str_split corrected;
  corrections ← new_object (PyDict ∅);
  for_zip fuel (py_zip original_tokens corrected_tokens) (λ o_token c_token,
    if str_ne o_token c_token
    then dict_setitem corrections o_token c_token
    else mret ());;
  mret (corrected_tokens, corrections).

End Imp.

(** ** The request handlers

    [post_home] and [correct_text] get the corrected text from
    [correct_grammar_english] or [correct_grammar_mbart], which run the
    loaded models.  The two are parameters here: a call answers with a
    text, or raises ([None]), and the handler lets the exception through.
    [post_home] hands a context to the template [index.html]; the context
    is what is modelled. *)

(** The body of a request to [/api] and the body of its answer. *)
Record CorrectionRequest := { text : str; lang_code : str }.
Record CorrectionResponse := { corrected_text : str; corrections : gmap str str }.

(** The entries [result] and [text] of a template context ([None]: the
    entry is Python's [None] or is not there). *)
Record page_context := { result : option str; shown_text : option str }.

Definition get_home : page_context := {| result := None; shown_text := None |}.

Section handlers.
Variable correct_grammar_english : str → option str.
Variable correct_grammar_mbart : str → str → option str.

Definition post_home (form_text form_lang_code : str) : option page_context :=
  corrected ← (if bool_decide (form_lang_code = s "en")
               then correct_grammar_english form_text
               else correct_grammar_mbart form_text form_lang_code);
  let highlighted_text := highlight_errors form_text corrected in
  Some {| result := Some highlighted_text; shown_text := Some form_text |}.

Definition correct_text (request : CorrectionRequest) : option CorrectionResponse :=
  corrected ← (if bool_decide (lang_code request = s "en")
               then correct_grammar_english (text request)
               else correct_grammar_mbart (text request) (lang_code request));
  let '(_, found) := get_corrections (text request) corrected in
  Some {| corrected_text := corrected; corrections := found |}.

End handlers.

(** ** Vocabulary of the further properties *)

(** The four tokens that a marked fragment splits into, and the tokens of
    the fragment that one iteration of [highlight_errors] appends. *)
Definition marked_tokens (o_token c_token : str) : list str :=
  [ s "<del"; s "style='color:red;'>" ++ o_token ++ s "</del>";
    s "<span"; s "style='color:green;'>" ++ c_token ++ s "</span>" ].

Definition fragment_tokens (pair : str * str) : list str :=
  if str_ne pair.1 pair.2 then marked_tokens pair.1 pair.2 else [pair.1].

(** A run of white space. *)
Definition blank (ws : str) : Prop := Forall (λ ch, isspace ch = true) ws.

(** Replaying a dict of corrections on tokens: a token that is a key is
    replaced by its entry, any other token stays. *)
Definition replay (found : gmap str str) (tokens : list str) : list str :=
  (λ t, default t (found !! t)) <$> tokens.

(** * Properties of the built-ins *)

Section builtins.
Implicit Types (w t text rest : str) (ts : list str).

Lemma nonspace_snoc w ch : nonspace w → isspace ch = false → nonspace (w ++ [ch]).
Proof. intros Hw Hch. apply Forall_app; split; [done | by constructor]. Qed.

Lemma split_from_nonspace t : ∀ w rest,
  nonspace t → split_from w (t ++ rest) = split_from (w ++ t) rest.
Proof.
  induction t as [|ch t IH]; intros w rest Ht; simpl.
  - by rewrite app_nil_r.
  - inversion_clear Ht as [|? ? Hch Ht'].
    rewrite Hch, IH by done. by rewrite <- app_assoc.
Qed.

Lemma split_from_space w ch rest :
  isspace ch = true → w ≠ [] → split_from w (ch :: rest) = w :: split_from [] rest.
Proof. intros Hch Hw. simpl. rewrite Hch. by destruct w. Qed.

Lemma split_from_end w : w ≠ [] → split_from w [] = [w].
Proof. by destruct w. Qed.

Lemma split_from_tokens text : ∀ w, nonspace w → Forall is_token (split_from w text).
Proof.
  induction text as [|ch rest IH]; intros w Hw; simpl.
  - destruct w as [|c w']; [apply Forall_nil_2 | apply Forall_singleton; by split].
  - destruct (isspace ch) eqn:Hch.
    + destruct w as [|c w'].
      * apply IH; constructor.
      * constructor; [by split | apply IH; constructor].
    + apply IH. by apply nonspace_snoc.
Qed.

(** Every token of [split] is non-empty and free of white space. *)
Lemma split_tokens text : Forall is_token (split text).
Proof. apply split_from_tokens. constructor. Qed.

Lemma split_nil : split [] = [].
Proof. reflexivity. Qed.

Lemma join_cons sep t t' ts :
  join sep (t :: t' :: ts) = t ++ sep ++ join sep (t' :: ts).
Proof. reflexivity. Qed.

(** Splitting the single-space join of tokens gives the tokens back. *)
Lemma split_join ts : Forall is_token ts → split (join (s " ") ts) = ts.
Proof.
  unfold split. induction ts as [|t ts IH]; intros Hts; [done|].
  inversion_clear Hts as [|? ? [Ht Hns] Hts'].
  destruct ts as [|t' ts].
  - pose proof (split_from_nonspace t [] [] Hns) as E.
    rewrite app_nil_r in E. simpl in *. rewrite E. by apply split_from_end.
  - rewrite join_cons, split_from_nonspace by done. simpl app at 1.
    change (s " " ++ ?x) with (32%N :: x).
    rewrite split_from_space by done. by rewrite IH.
Qed.

Lemma length_split_from text : ∀ w,
  length (split_from w text) ≤ (if w is [] then 0 else 1) + length text.
Proof.
  induction text as [|ch rest IH]; intros w; simpl.
  - destruct w; simpl; lia.
  - destruct (isspace ch).
    + specialize (IH []). destruct w; simpl in *; lia.
    + specialize (IH (w ++ [ch])). destruct w; simpl in *; lia.
Qed.

(** A text has at most as many tokens as code points. *)
Lemma length_split text : length (split text) ≤ length text.
Proof. apply (length_split_from text []). Qed.

End builtins.

(** * Properties of the two loops *)

Section loops.
Implicit Types (o c k v : str) (l : list (str * str)) (m : gmap str str).

Lemma str_ne_true o c : str_ne o c = true ↔ o ≠ c.
Proof. unfold str_ne. by rewrite bool_decide_eq_true. Qed.

Lemma str_ne_false o c : str_ne o c = false ↔ o = c.
Proof.
  unfold str_ne. rewrite bool_decide_eq_false.
  split; [apply dec_stable | by intros -> ?].
Qed.

Lemma fragment_same o : fragment (o, o) = o.
Proof.
  unfold fragment; simpl.
  by rewrite (proj2 (str_ne_false o o) eq_refl).
Qed.

Lemma fragment_diff o c : o ≠ c → fragment (o, c) = marked o c.
Proof.
  intros Hne. unfold fragment; simpl.
  by rewrite (proj2 (str_ne_true o c) Hne).
Qed.

Lemma fragment_decide o c :
  fragment (o, c) = if decide (o = c) then o else marked o c.
Proof.
  case_decide as H; [subst; apply fragment_same | by apply fragment_diff].
Qed.

Lemma highlight_body_fragment hl p : highlight_body hl p = hl ++ [fragment p].
Proof. destruct p as [o c]. unfold highlight_body, fragment; simpl. by destruct (str_ne o c). Qed.

(** The loop of [highlight_errors] appends one fragment per pair. *)
Lemma highlight_loop l : ∀ hl, fold_left highlight_body l hl = hl ++ map fragment l.
Proof.
  induction l as [|p l IH]; intros hl; simpl.
  - by rewrite app_nil_r.
  - by rewrite IH, highlight_body_fragment, <- app_assoc.
Qed.

Lemma highlighted_list_map original corrected :
  highlighted_list original corrected
  = map fragment (zip (split original) (split corrected)).
Proof. unfold highlighted_list. by rewrite highlight_loop. Qed.

Lemma length_highlighted_list original corrected :
  length (highlighted_list original corrected) = paired original corrected.
Proof.
  rewrite highlighted_list_map, length_map, length_zip. reflexivity.
Qed.

Lemma highlighted_list_lookup original corrected i o c :
  split original !! i = Some o → split corrected !! i = Some c →
  highlighted_list original corrected !! i
  = Some (if decide (o = c) then o else marked o c).
Proof.
  intros Ho Hc. rewrite highlighted_list_map.
  change (map fragment ?l) with (fragment <$> l).
  rewrite list_lookup_fmap.
  rewrite (proj2 (lookup_zip_Some _ _ i o c) (conj Ho Hc)); simpl.
  by rewrite fragment_decide.
Qed.

(** A marked fragment holds a space, so it is never a token. *)
Lemma marked_not_token o c : ¬ is_token (marked o c).
Proof.
  intros [_ Hns]. unfold marked in Hns.
  apply Forall_app in Hns as [Hdel _].
  unfold del_open in Hdel.
  assert (Hin : 32%N ∈ s "<del style='color:red;'>").
  { vm_compute. do 4 apply list_elem_of_further. apply list_elem_of_here. }
  rewrite Forall_forall in Hdel. by specialize (Hdel _ Hin).
Qed.

Lemma marked_ne o c : marked o c ≠ o.
Proof.
  intros E. apply (f_equal length) in E. unfold marked in E.
  rewrite !length_app in E. vm_compute (length del_open) in E. lia.
Qed.

Lemma unchanged_in_cons o c l k :
  unchanged_in ((o, c) :: l) k ↔ (o = k → k = c) ∧ unchanged_in l k.
Proof.
  unfold unchanged_in. split.
  - intros H. split.
    + intros ->. by apply (H 0).
    + intros j v' Hj. by apply (H (S j)).
  - intros [H0 H] [|j] v' Hj; simpl in Hj.
    + injection Hj as -> ->. by apply H0.
    + by apply (H j).
Qed.

Lemma last_change_cons o c l k v :
  last_change ((o, c) :: l) k v
  ↔ (o = k ∧ c = v ∧ k ≠ v ∧ unchanged_in l k) ∨ last_change l k v.
Proof.
  unfold last_change, unchanged_in. split.
  - intros ([|i] & Hi & Hne & Hlast); simpl in Hi.
    + injection Hi as -> ->. left. repeat split; [done|].
      intros j v' Hj. apply (Hlast (S j)); [lia | done].
    + right. exists i. repeat split; [done..|].
      intros j v' Hij Hj. apply (Hlast (S j)); [lia | done].
  - intros [(-> & -> & Hne & Hun) | (i & Hi & Hne & Hlast)].
    + exists 0. repeat split; [done|].
      intros [|j] v' Hj Hl; [lia|]. by apply (Hun j).
    + exists (S i). repeat split; [done..|].
      intros [|j] v' Hj Hl; [lia|]. apply (Hlast j); [lia | done].
Qed.

(** The loop of [get_corrections]: a key maps to the second component of
    the last pair that changes it, and keeps its earlier value when no
    pair changes it. *)
Lemma corrections_loop l : ∀ m k v,
  fold_left corrections_body l m !! k = Some v
  ↔ last_change l k v ∨ (m !! k = Some v ∧ unchanged_in l k).
Proof.
  induction l as [|[o c] l IH]; intros m k v; simpl.
  - unfold last_change, unchanged_in. split; [intros H; right | ].
    + split; [done | intros j v' Hj; by rewrite lookup_nil in Hj].
    + intros [(i & Hi & _) | [H _]]; [by rewrite lookup_nil in Hi | done].
  - rewrite IH, last_change_cons, unchanged_in_cons. unfold corrections_body.
    destruct (str_ne o c) eqn:Hoc.
    + apply str_ne_true in Hoc. destruct (decide (o = k)) as [->|Hok].
      * rewrite lookup_insert_eq. split.
        -- intros [H | [[= ->] H]]; [by left; right | by left; left].
        -- intros [[(_ & -> & _ & H) | H] | [_ [H _]]];
             [by right | by left | by destruct Hoc; rewrite H].
      * rewrite lookup_insert_ne by done. split.
        -- intros [H | [H1 H2]]; [by left; right | by right].
        -- intros [[(E & _) | H] | [H1 [_ H2]]];
             [done | by left | by right].
    + apply str_ne_false in Hoc. subst c. split.
      * intros [H | [H1 H2]]; [by left; right | by right].
      * intros [[(E1 & E2 & H & _) | H] | [H1 [_ H2]]];
          [congruence | by left | by right].
Qed.

Lemma corrections_lookup original corrected k v :
  (get_corrections original corrected).2 !! k = Some v
  ↔ last_change (zip (split original) (split corrected)) k v.
Proof.
  unfold get_corrections; simpl. rewrite corrections_loop.
  rewrite lookup_empty. split; [by intros [H | [[=] _]] | by left].
Qed.

(** The keys of the loop's dict: the earlier ones and every changed one. *)
Lemma corrections_loop_dom l : ∀ m k,
  is_Some (fold_left corrections_body l m !! k)
  ↔ is_Some (m !! k) ∨ ∃ i v, l !! i = Some (k, v) ∧ k ≠ v.
Proof.
  induction l as [|[o c] l IH]; intros m k; simpl.
  - split; [by left | intros [H | (i & v & Hi & _)]; [done|]].
    by rewrite lookup_nil in Hi.
  - rewrite IH. unfold corrections_body.
    destruct (str_ne o c) eqn:Hoc.
    + apply str_ne_true in Hoc. rewrite lookup_insert_is_Some. split.
      * intros [[-> | [_ H]] | (i & v & Hi & Hne)].
        -- right. by exists 0, c.
        -- by left.
        -- right. by exists (S i), v.
      * intros [H | ([|i] & v & Hi & Hne)].
        -- destruct (decide (o = k)); [by left; left | by left; right].
        -- injection Hi as -> ->. by left; left.
        -- right. by exists i, v.
    + apply str_ne_false in Hoc. subst c. split.
      * intros [H | (i & v & Hi & Hne)]; [by left | right; by exists (S i), v].
      * intros [H | ([|i] & v & Hi & Hne)]; [by left | | right; by exists i, v].
        injection Hi as -> ->. done.
Qed.

Lemma split_join_take n text :
  split (join (s " ") (take n (split text))) = take n (split text).
Proof. apply split_join, Forall_take, split_tokens. Qed.

(** Only the first [paired] tokens of each text reach the loops. *)
Lemma zip_split_truncated original corrected :
  zip (split (join (s " ") (take (paired original corrected) (split original))))
      (split (join (s " ") (take (paired original corrected) (split corrected))))
  = zip (split original) (split corrected).
Proof.
  rewrite !split_join_take. by apply zip_with_take_both'.
Qed.

End loops.

(** * Properties of the helpers on the heap *)

Section store.
Implicit Types (h : Imp.heap) (a b d : Imp.loc) (xs ys : list str).

Lemma alloc_fresh h : h !! fresh (dom h) = None.
Proof. apply not_elem_of_dom, is_fresh. Qed.

Lemma alloc_subseteq h o : h ⊆ Imp.alloc h o.
Proof. apply insert_subseteq, alloc_fresh. Qed.

Lemma alloc_lookup_new h o : Imp.alloc h o !! fresh (dom h) = Some o.
Proof. apply lookup_insert_eq. Qed.

Lemma alloc_lookup_old h o a x : h !! a = Some x → Imp.alloc h o !! a = Some x.
Proof. intros Ha. by apply (lookup_weaken h), alloc_subseteq. Qed.

Lemma alloc_fresh_ne h a x : h !! a = Some x → a ≠ fresh (dom h).
Proof. intros Ha ->. by rewrite alloc_fresh in Ha. Qed.

Lemma for_zip_unfold fuel z body :
  Imp.for_zip fuel z body
  = (item ← Imp.zip_next z;
     match item with
     | None => mret ()
     | Some (x, y, z') =>
         match fuel with
         | 0 => Imp.out_of_fuel
         | S fuel' => body x y;; Imp.for_zip fuel' z' body
         end
     end).
Proof. by destruct fuel. Qed.

Lemma zip_next_run h a b i j xs ys :
  h !! a = Some (Imp.PyList xs) → h !! b = Some (Imp.PyList ys) →
  Imp.zip_next {| Imp.zip_left := {| Imp.it_list := a; Imp.it_index := i |};
              Imp.zip_right := {| Imp.it_list := b; Imp.it_index := j |} |} h
  = Imp.Ok (match xs !! i, ys !! j with
        | Some x, Some y =>
            Some (x, y, {| Imp.zip_left := {| Imp.it_list := a; Imp.it_index := S i |};
                           Imp.zip_right := {| Imp.it_list := b; Imp.it_index := S j |} |})
        | _, _ => None
        end) h.
Proof.
  intros Ha Hb. unfold Imp.zip_next, mbind, Imp.M_bind, Imp.list_iter_next; simpl.
  rewrite Ha. destruct (xs !! i); [|done].
  rewrite Hb. by destruct (ys !! j).
Qed.

Lemma drop_nil_lookup {A} (l : list A) i : drop i l = [] → l !! i = None.
Proof.
  intros E. rewrite <- (Nat.add_0_r i), <- lookup_drop. by rewrite E.
Qed.

Lemma drop_cons_lookup {A} (l : list A) i x r :
  drop i l = x :: r → l !! i = Some x ∧ drop (S i) l = r.
Proof.
  intros E.
  assert (Hx : l !! i = Some x).
  { rewrite <- (Nat.add_0_r i), <- lookup_drop. by rewrite E. }
  split; [done|]. rewrite (drop_S _ _ _ Hx) in E. by injection E.
Qed.

(** A [for] loop over [zip(a, b)] whose body only replaces the object at
    [d], a location other than [a] and [b]: it runs its body once per
    pair, in order, and needs exactly that much fuel. *)
Section loop_run.
Context {St : Type} (inj : St → Imp.obj) (f : St → str * str → St).
Context (body : str → str → Imp.M unit) (a b d : Imp.loc) (xs ys : list str).
Hypothesis body_run : ∀ h st x y,
  h !! d = Some (inj st) → body x y h = Imp.Ok () (<[d := inj (f st (x, y))]> h).

Lemma for_zip_run_from rx : ∀ ry i fuel st h,
  drop i xs = rx → drop i ys = ry →
  h !! a = Some (Imp.PyList xs) → h !! b = Some (Imp.PyList ys) →
  h !! d = Some (inj st) → a ≠ d → b ≠ d →
  Imp.for_zip fuel {| Imp.zip_left := {| Imp.it_list := a; Imp.it_index := i |};
                  Imp.zip_right := {| Imp.it_list := b; Imp.it_index := i |} |} body h
  = if decide (length (zip rx ry) ≤ fuel)
    then Imp.Ok () (<[d := inj (fold_left f (zip rx ry) st)]> h)
    else Imp.OutOfFuel.
Proof.
  induction rx as [|x rx IH]; intros ry i fuel st h Hx Hy Ha Hb Hd Had Hbd;
    rewrite for_zip_unfold; unfold mbind at 1, Imp.M_bind at 1;
    rewrite (zip_next_run h a b i i xs ys Ha Hb).
  - rewrite (drop_nil_lookup _ _ Hx). cbn [zip_with length fold_left].
    rewrite decide_True by lia. unfold mret, Imp.M_ret. by rewrite insert_id.
  - apply drop_cons_lookup in Hx as [-> Hx].
    destruct ry as [|y ry].
    + rewrite (drop_nil_lookup _ _ Hy). cbn [zip_with length fold_left].
      rewrite decide_True by lia. unfold mret, Imp.M_ret. by rewrite insert_id.
    + apply drop_cons_lookup in Hy as [-> Hy].
      cbn [zip_with length fold_left].
      destruct fuel as [|fuel].
      * by rewrite decide_False by lia.
      * unfold mbind, Imp.M_bind. rewrite (body_run h st x y Hd).
        rewrite (IH ry (S i) fuel (f st (x, y))); try done.
        -- rewrite insert_insert_eq.
           destruct (decide (length (zip rx ry) ≤ fuel));
             [by rewrite decide_True by lia | by rewrite decide_False by lia].
        -- by rewrite lookup_insert_ne.
        -- by rewrite lookup_insert_ne.
        -- by rewrite lookup_insert_eq.
Qed.

Lemma for_zip_run fuel st h :
  h !! a = Some (Imp.PyList xs) → h !! b = Some (Imp.PyList ys) →
  h !! d = Some (inj st) → a ≠ d → b ≠ d →
  Imp.for_zip fuel (Imp.py_zip a b) body h
  = if decide (length (zip xs ys) ≤ fuel)
    then Imp.Ok () (<[d := inj (fold_left f (zip xs ys) st)]> h)
    else Imp.OutOfFuel.
Proof. intros. by apply for_zip_run_from. Qed.
End loop_run.

End store.

Section runs.
Implicit Types (h : Imp.heap) (d : Imp.loc) (x y original corrected : str).

Lemma tokens_heap_subseteq h original corrected :
  h ⊆ Imp.tokens_heap h original corrected.
Proof.
  unfold Imp.tokens_heap. etrans; [apply alloc_subseteq | apply alloc_subseteq].
Qed.

Lemma highlight_body_run d h (st : list str) x y :
  h !! d = Some (Imp.PyList st) →
  (if str_ne x y then Imp.list_append d (marked x y) else Imp.list_append d x) h
  = Imp.Ok () (<[d := Imp.PyList (highlight_body st (x, y))]> h).
Proof.
  intros Hd. unfold highlight_body, Imp.list_append.
  destruct (str_ne x y); by rewrite Hd.
Qed.

Lemma corrections_body_run d h (st : gmap str str) x y :
  h !! d = Some (Imp.PyDict st) →
  (if str_ne x y then Imp.dict_setitem d x y else mret ()) h
  = Imp.Ok () (<[d := Imp.PyDict (corrections_body st (x, y))]> h).
Proof.
  intros Hd. unfold corrections_body, Imp.dict_setitem.
  destruct (str_ne x y); [by rewrite Hd|].
  unfold mret, Imp.M_ret. by rewrite insert_id.
Qed.

(** The run of [highlight_errors] on any store: with fuel for every pair
    it returns what the loop-free reading returns and leaves the store
    extended by its three objects; with less it runs out of fuel. *)
Lemma imp_highlight_errors_run fuel original corrected h :
  Imp.highlight_errors fuel original corrected h
  = if decide (paired original corrected ≤ fuel)
    then Imp.Ok (highlight_errors original corrected)
            (Imp.highlight_heap h original corrected)
    else Imp.OutOfFuel.
Proof.
  unfold Imp.highlight_errors, Imp.str_split, Imp.new_object, mbind, Imp.M_bind.
  set (h1 := Imp.alloc h (Imp.PyList (split original))).
  set (h2 := Imp.alloc h1 (Imp.PyList (split corrected))).
  set (a := fresh (dom h)). set (b := fresh (dom h1)). set (d := fresh (dom h2)).
  assert (Ha : h2 !! a = Some (Imp.PyList (split original))).
  { apply alloc_lookup_old, alloc_lookup_new. }
  assert (Hb : h2 !! b = Some (Imp.PyList (split corrected))).
  { apply alloc_lookup_new. }
  rewrite (for_zip_run Imp.PyList highlight_body _ a b d
             (split original) (split corrected)
             (highlight_body_run d) fuel []).
  - rewrite length_zip. fold (paired original corrected).
    case_decide; [|done].
    unfold Imp.str_join. rewrite lookup_insert_eq.
    unfold Imp.alloc at 1. fold d. rewrite insert_insert_eq. done.
  - by apply alloc_lookup_old.
  - by apply alloc_lookup_old.
  - apply alloc_lookup_new.
  - by eapply alloc_fresh_ne.
  - by eapply alloc_fresh_ne.
Qed.

Lemma imp_get_corrections_run fuel original corrected h :
  Imp.get_corrections fuel original corrected h
  = if decide (paired original corrected ≤ fuel)
    then Imp.Ok (fresh (dom (Imp.alloc h (Imp.PyList (split original)))),
             fresh (dom (Imp.tokens_heap h original corrected)))
            (Imp.corrections_heap h original corrected)
    else Imp.OutOfFuel.
Proof.
  unfold Imp.get_corrections, Imp.str_split, Imp.new_object, mbind, Imp.M_bind.
  set (h1 := Imp.alloc h (Imp.PyList (split original))).
  set (h2 := Imp.alloc h1 (Imp.PyList (split corrected))).
  set (a := fresh (dom h)). set (b := fresh (dom h1)). set (d := fresh (dom h2)).
  assert (Ha : h2 !! a = Some (Imp.PyList (split original))).
  { apply alloc_lookup_old, alloc_lookup_new. }
  assert (Hb : h2 !! b = Some (Imp.PyList (split corrected))).
  { apply alloc_lookup_new. }
  rewrite (for_zip_run Imp.PyDict corrections_body _ a b d
             (split original) (split corrected)
             (corrections_body_run d) fuel ∅).
  - rewrite length_zip. fold (paired original corrected).
    case_decide; [|done].
    unfold Imp.alloc at 1. fold d. rewrite insert_insert_eq. done.
  - by apply alloc_lookup_old.
  - by apply alloc_lookup_old.
  - apply alloc_lookup_new.
  - by eapply alloc_fresh_ne.
  - by eapply alloc_fresh_ne.
Qed.

(** What the store holds after a run. *)
Lemma highlight_heap_subseteq h original corrected :
  h ⊆ Imp.highlight_heap h original corrected.
Proof.
  unfold Imp.highlight_heap. etrans; [apply tokens_heap_subseteq | apply alloc_subseteq].
Qed.

Lemma corrections_heap_subseteq h original corrected :
  h ⊆ Imp.corrections_heap h original corrected.
Proof.
  unfold Imp.corrections_heap. etrans; [apply tokens_heap_subseteq | apply alloc_subseteq].
Qed.

Lemma corrections_heap_tokens h original corrected :
  Imp.corrections_heap h original corrected
    !! fresh (dom (Imp.alloc h (Imp.PyList (split original))))
  = Some (Imp.PyList (split corrected)).
Proof. unfold Imp.corrections_heap, Imp.tokens_heap. apply alloc_lookup_old, alloc_lookup_new. Qed.

Lemma corrections_heap_dict h original corrected :
  Imp.corrections_heap h original corrected
    !! fresh (dom (Imp.tokens_heap h original corrected))
  = Some (Imp.PyDict (get_corrections original corrected).2).
Proof. apply alloc_lookup_new. Qed.

Lemma tokens_heap_fresh_tokens h original :
  h !! fresh (dom (Imp.alloc h (Imp.PyList (split original)))) = None.
Proof.
  destruct (h !! _) eqn:E; [|done].
  apply (alloc_lookup_old _ (Imp.PyList (split original))) in E.
  by rewrite alloc_fresh in E.
Qed.

Lemma tokens_heap_fresh_dict h original corrected :
  h !! fresh (dom (Imp.tokens_heap h original corrected)) = None.
Proof.
  destruct (h !! _) eqn:E; [|done].
  pose proof (lookup_weaken _ _ _ _ E (tokens_heap_subseteq h original corrected)) as E'.
  by rewrite alloc_fresh in E'.
Qed.

End runs.

(** * The claims of the specification *)

(** C1: [highlight_errors] splits both texts on white space, walks the
    positions up to the length of the shorter token sequence, emits the
    token itself where the two tokens are the same code point sequence and
    the marked fragment (original as removed, corrected as added) where
    they differ, and returns the fragments joined by single spaces. *)
Theorem highlight_errors_positional original corrected :
  (∃ fragments : list str,
      highlight_errors original corrected = join (s " ") fragments
      ∧ length fragments = length (split original) `min` length (split corrected)
      ∧ ∀ i o c, split original !! i = Some o → split corrected !! i = Some c →
          fragments !! i = Some (if decide (o = c) then o else
            s "<del style='color:red;'>" ++ o
              ++ s "</del> <span style='color:green;'>" ++ c ++ s "</span>"))
  ∧ highlight_errors (s "teh cat sat") (s "the cat sat")
    = s "<del style='color:red;'>teh</del> <span style='color:green;'>the</span> cat sat"
  ∧ highlight_errors (s "The cat") (s "the cat")
    = s "<del style='color:red;'>The</del> <span style='color:green;'>the</span> cat".
Proof.
  split; [|split; vm_compute; reflexivity].
  exists (highlighted_list original corrected). split; [done|]. split.
  - apply length_highlighted_list.
  - intros i o c Ho Hc. apply (highlighted_list_lookup _ _ _ _ _ Ho Hc).
Qed.

(** C2: [get_corrections] returns every token of the corrected text, in
    order, and a dict in which [k] maps to [v] exactly when [(k, v)] is a
    pair of different tokens at a position below the shorter length and no
    later such position has the same original token [k]: the later
    occurrence overwrites the earlier one. *)
Theorem get_corrections_positional original corrected :
  (get_corrections original corrected).1 = split corrected
  ∧ (∀ k v, (get_corrections original corrected).2 !! k = Some v
      ↔ ∃ i, i < length (split original) `min` length (split corrected)
             ∧ split original !! i = Some k ∧ split corrected !! i = Some v
             ∧ k ≠ v
             ∧ ∀ j v', i < j → split original !! j = Some k →
                 split corrected !! j = Some v' → k = v')
  ∧ get_corrections (s "a a b") (s "a x b")
    = ([s "a"; s "x"; s "b"], {[ s "a" := s "x" ]}).
Proof.
  split; [done|]. split; [|vm_compute; reflexivity].
  intros k v. rewrite corrections_lookup. unfold last_change. split.
  - intros (i & Hi & Hne & Hlast). exists i.
    pose proof (lookup_lt_Some _ _ _ Hi) as Hlt. rewrite length_zip in Hlt.
    apply lookup_zip_Some in Hi as [Ho Hc]. repeat split; [done..|].
    intros j v' Hij Hj Hj'. apply (Hlast j v' Hij). by apply lookup_zip_Some.
  - intros (i & _ & Ho & Hc & Hne & Hlast). exists i. repeat split; [|done|].
    + by apply lookup_zip_Some.
    + intros j v' Hij [Hj Hj']%lookup_zip_Some. by apply (Hlast j v').
Qed.

(** C3: when the token sequences have unequal length (and when they have
    not), only the positions below the shorter length are compared:
    [highlight_errors] emits one fragment per such position and none for
    the trailing tokens, which have no influence on either result; every
    entry of the dict of [get_corrections] comes from such a position; and
    neither helper raises. *)
Theorem trailing_tokens_dropped original corrected :
  length (highlighted_list original corrected)
    = length (split original) `min` length (split corrected)
  ∧ highlight_errors original corrected
    = highlight_errors
        (join (s " ") (take (paired original corrected) (split original)))
        (join (s " ") (take (paired original corrected) (split corrected)))
  ∧ (get_corrections original corrected).2
    = (get_corrections
         (join (s " ") (take (paired original corrected) (split original)))
         (join (s " ") (take (paired original corrected) (split corrected)))).2
  ∧ (∀ k v, (get_corrections original corrected).2 !! k = Some v →
       ∃ i, i < length (split original) `min` length (split corrected)
            ∧ split original !! i = Some k ∧ split corrected !! i = Some v)
  ∧ (∀ fuel h, Imp.highlight_errors fuel original corrected h ≠ Imp.Raise
               ∧ Imp.get_corrections fuel original corrected h ≠ Imp.Raise)
  ∧ (get_corrections (s "a b") (s "a b c")).2 = ∅
  ∧ highlight_errors (s "a b") (s "a b c") = s "a b".
Proof.
  split; [apply length_highlighted_list|].
  split.
  { unfold highlight_errors, highlighted_list. by rewrite zip_split_truncated. }
  split.
  { unfold get_corrections; simpl. by rewrite zip_split_truncated. }
  split.
  { intros k v (i & Hi & _)%corrections_lookup. exists i.
    pose proof (lookup_lt_Some _ _ _ Hi) as Hlt. rewrite length_zip in Hlt.
    by apply lookup_zip_Some in Hi as [Ho Hc]. }
  split; [|split; vm_compute; reflexivity].
  intros fuel h.
  rewrite imp_highlight_errors_run, imp_get_corrections_run.
  by case_decide.
Qed.

(** C4: for every text [x], [highlight_errors x x] is the single-space join
    of the tokens of [x], that is [x] with its white space normalized, and
    no fragment is a marked one; a text that is already a single-space join
    of tokens comes back unchanged. *)
Theorem highlight_errors_same x :
  highlight_errors x x = join (s " ") (split x)
  ∧ highlighted_list x x = split x
  ∧ (∀ f o c, f ∈ highlighted_list x x → f ≠ marked o c)
  ∧ split (highlight_errors x x) = split x
  ∧ (∀ ts, Forall is_token ts → x = join (s " ") ts → highlight_errors x x = x)
  ∧ highlight_errors (s "a b c") (s "a b c") = s "a b c"
  ∧ highlight_errors (s "  a   b c ") (s "  a   b c ") = s "a b c".
Proof.
  assert (Hsame : highlighted_list x x = split x).
  { rewrite highlighted_list_map.
    induction (split x) as [|t ts IH]; [done|].
    simpl. by rewrite fragment_same, IH. }
  assert (Hjoin : highlight_errors x x = join (s " ") (split x)).
  { unfold highlight_errors. by rewrite Hsame. }
  split; [done|]. split; [done|]. split.
  { intros f o c Hf ->. rewrite Hsame in Hf.
    pose proof (split_tokens x) as Htok. rewrite Forall_forall in Htok.
    by apply (marked_not_token o c), Htok. }
  split.
  { rewrite Hjoin. apply split_join, split_tokens. }
  split; [|split; vm_compute; reflexivity].
  intros ts Hts ->. rewrite Hjoin. by rewrite split_join.
Qed.

(** C5: [highlight_errors] returns a string and never raises, whatever the
    token counts; when either text is empty the result is the empty
    string. *)
Theorem highlight_errors_never_raises original corrected :
  (∀ fuel h, Imp.highlight_errors fuel original corrected h ≠ Imp.Raise)
  ∧ (∀ h, ∃ h', Imp.highlight_errors (paired original corrected) original corrected h
               = Imp.Ok (highlight_errors original corrected) h')
  ∧ highlight_errors [] corrected = []
  ∧ highlight_errors original [] = []
  ∧ highlight_errors [] [] = []
  ∧ (∀ fuel h, ∃ h', Imp.highlight_errors fuel [] corrected h = Imp.Ok [] h')
  ∧ (∀ fuel h, ∃ h', Imp.highlight_errors fuel original [] h = Imp.Ok [] h').
Proof.
  assert (Hr : highlight_errors original [] = []).
  { unfold highlight_errors, highlighted_list. rewrite split_nil.
    by destruct (split original). }
  split.
  { intros fuel h. rewrite imp_highlight_errors_run. by case_decide. }
  split.
  { intros h. rewrite imp_highlight_errors_run, decide_True by done. eauto. }
  split; [done|]. split; [done|]. split; [done|]. split.
  - intros fuel h. rewrite imp_highlight_errors_run, decide_True.
    + eauto.
    + unfold paired. rewrite split_nil. simpl. lia.
  - intros fuel h. rewrite imp_highlight_errors_run, decide_True.
    + rewrite Hr. eauto.
    + unfold paired. rewrite split_nil. simpl. lia.
Qed.

(** C6: the helpers are pure and deterministic.  Run on any two stores
    (for instance the one before and the one after an earlier call), each
    returns the same result, which is a function of the two texts alone,
    and leaves every object that the store held before as it was: the only
    objects written are the helper's own new ones.  For [get_corrections]
    the result is a pair of new objects, which hold the same token list and
    the same dict in both runs. *)
Theorem helpers_pure original corrected (h1 h2 : Imp.heap) extra1 extra2 :
  (∃ h1' h2',
      Imp.highlight_errors (paired original corrected + extra1) original corrected h1
      = Imp.Ok (highlight_errors original corrected) h1'
      ∧ Imp.highlight_errors (paired original corrected + extra2) original corrected h2
        = Imp.Ok (highlight_errors original corrected) h2'
      ∧ h1 ⊆ h1' ∧ h2 ⊆ h2')
  ∧ (∃ tokens1 dict1 h1' tokens2 dict2 h2',
      Imp.get_corrections (paired original corrected + extra1) original corrected h1
      = Imp.Ok (tokens1, dict1) h1'
      ∧ Imp.get_corrections (paired original corrected + extra2) original corrected h2
        = Imp.Ok (tokens2, dict2) h2'
      ∧ h1 ⊆ h1' ∧ h2 ⊆ h2'
      ∧ h1 !! tokens1 = None ∧ h1 !! dict1 = None
      ∧ h2 !! tokens2 = None ∧ h2 !! dict2 = None
      ∧ h1' !! tokens1 = Some (Imp.PyList (get_corrections original corrected).1)
      ∧ h2' !! tokens2 = Some (Imp.PyList (get_corrections original corrected).1)
      ∧ h1' !! dict1 = Some (Imp.PyDict (get_corrections original corrected).2)
      ∧ h2' !! dict2 = Some (Imp.PyDict (get_corrections original corrected).2)).
Proof.
  split.
  - exists (Imp.highlight_heap h1 original corrected),
           (Imp.highlight_heap h2 original corrected).
    rewrite !imp_highlight_errors_run, !decide_True by lia.
    repeat split; apply highlight_heap_subseteq.
  - eexists _, _, (Imp.corrections_heap h1 original corrected),
            _, _, (Imp.corrections_heap h2 original corrected).
    rewrite !imp_get_corrections_run, !decide_True by lia.
    split; [reflexivity|]. split; [reflexivity|].
    split; [apply corrections_heap_subseteq|].
    split; [apply corrections_heap_subseteq|].
    split; [apply tokens_heap_fresh_tokens|].
    split; [apply tokens_heap_fresh_dict|].
    split; [apply tokens_heap_fresh_tokens|].
    split; [apply tokens_heap_fresh_dict|].
    split; [apply corrections_heap_tokens|].
    split; [apply corrections_heap_tokens|].
    split; apply corrections_heap_dict.
Qed.

(** C7: both helpers terminate after a single pass: the loop body runs
    once per position below the shorter token count, so fuel for that many
    iterations is enough and no smaller amount is, and this number is
    bounded by the length of either text. *)
Theorem helpers_terminate original corrected (h : Imp.heap) :
  (∃ h', Imp.highlight_errors
           (length (split original) `min` length (split corrected))
           original corrected h
         = Imp.Ok (highlight_errors original corrected) h')
  ∧ (∀ fuel, Imp.highlight_errors fuel original corrected h = Imp.OutOfFuel
             ↔ fuel < length (split original) `min` length (split corrected))
  ∧ (∃ r h', Imp.get_corrections
               (length (split original) `min` length (split corrected))
               original corrected h
             = Imp.Ok r h')
  ∧ (∀ fuel, Imp.get_corrections fuel original corrected h = Imp.OutOfFuel
             ↔ fuel < length (split original) `min` length (split corrected))
  ∧ length (split original) `min` length (split corrected)
    ≤ length original `min` length corrected.
Proof.
  fold (paired original corrected).
  split.
  { rewrite imp_highlight_errors_run, decide_True by done. eauto. }
  split.
  { intros fuel. rewrite imp_highlight_errors_run.
    case_decide; split; (done || lia). }
  split.
  { rewrite imp_get_corrections_run, decide_True by done. eauto. }
  split.
  { intros fuel. rewrite imp_get_corrections_run.
    case_decide; split; (done || lia). }
  unfold paired.
  pose proof (length_split original). pose proof (length_split corrected). lia.
Qed.

(** C8: no entry of the dict of [get_corrections] maps a token to
    itself. *)
Theorem corrections_no_identity original corrected k v :
  (get_corrections original corrected).2 !! k = Some v → k ≠ v.
Proof. by intros (i & _ & Hne & _)%corrections_lookup. Qed.

Lemma corrections_no_identity_witness : s "a" ≠ s "x".
Proof.
  apply (corrections_no_identity (s "a a b") (s "a x b") (s "a") (s "x")).
  vm_compute. reflexivity.
Defined.

(** C9: the token list that [get_corrections] returns depends on the
    corrected text alone: it is the split of that text, whole, whatever the
    original text is, also when the original has fewer tokens; and the list
    object returned still holds it when the loop has ended. *)
Theorem corrected_tokens_independent corrected original1 original2 :
  (get_corrections original1 corrected).1 = (get_corrections original2 corrected).1
  ∧ (get_corrections original1 corrected).1 = split corrected
  ∧ (get_corrections (s "a") (s "a b c")).1 = [s "a"; s "b"; s "c"]
  ∧ (get_corrections [] (s "a b c")).1 = [s "a"; s "b"; s "c"]
  ∧ (∀ h : Imp.heap, ∃ tokens dict h',
       Imp.get_corrections (paired original1 corrected) original1 corrected h
       = Imp.Ok (tokens, dict) h'
       ∧ h' !! tokens = Some (Imp.PyList (split corrected))).
Proof.
  split; [done|]. split; [done|].
  split; [vm_compute; reflexivity|]. split; [vm_compute; reflexivity|].
  intros h. eexists _, _, _.
  rewrite imp_get_corrections_run, decide_True by done.
  split; [done | apply corrections_heap_tokens].
Qed.

(** C10: the two helpers agree on the changed positions: the keys of the
    dict of [get_corrections] are the original tokens that
    [highlight_errors] renders as removed, and both are the original tokens
    that face a different corrected token at a position below the shorter
    length. *)
Theorem helpers_agree_on_changes original corrected k :
  (k ∈ dom (get_corrections original corrected).2
     ↔ rendered_removed original corrected k)
  ∧ (k ∈ dom (get_corrections original corrected).2
     ↔ changed_token original corrected k)
  ∧ (rendered_removed original corrected k ↔ changed_token original corrected k).
Proof.
  assert (Hdom : k ∈ dom (get_corrections original corrected).2
                 ↔ changed_token original corrected k).
  { rewrite elem_of_dom. unfold get_corrections; simpl.
    rewrite corrections_loop_dom, lookup_empty. unfold changed_token. split.
    - intros [[? [=]] | (i & c & Hi & Hne)]. exists i, c.
      pose proof (lookup_lt_Some _ _ _ Hi) as Hlt. rewrite length_zip in Hlt.
      by apply lookup_zip_Some in Hi as [Ho Hc].
    - intros (i & c & _ & Ho & Hc & Hne). right. exists i, c.
      split; [by apply lookup_zip_Some | done]. }
  assert (Hren : rendered_removed original corrected k
                 ↔ changed_token original corrected k).
  { unfold rendered_removed, changed_token. split.
    - intros (i & c & Ho & Hc & Hf). exists i, c.
      rewrite (highlighted_list_lookup _ _ _ _ _ Ho Hc) in Hf.
      pose proof (lookup_lt_Some _ _ _ Ho). pose proof (lookup_lt_Some _ _ _ Hc).
      repeat split; [unfold paired; lia | done..|].
      intros ->. rewrite decide_True in Hf by done.
      injection Hf as Hf. by apply (marked_ne c c).
    - intros (i & c & _ & Ho & Hc & Hne). exists i, c.
      repeat split; [done..|].
      by rewrite (highlighted_list_lookup _ _ _ _ _ Ho Hc), decide_False. }
  split; [by rewrite Hdom, Hren | done].
Qed.


(** * Further properties of the built-ins *)

Section more_builtins.
Implicit Types (w a b ws t : str) (ts : list str).

Lemma split_from_app_space a : ∀ w ch b,
  isspace ch = true → split_from w (a ++ ch :: b) = split_from w a ++ split b.
Proof.
  induction a as [|x a IH]; intros w ch b Hch; simpl.
  - rewrite Hch. by destruct w.
  - destruct (isspace x).
    + destruct w; simpl; by rewrite IH.
    + by rewrite IH.
Qed.

(** White space in front of a text adds no token. *)
Lemma split_blank_l ws b : blank ws → split (ws ++ b) = split b.
Proof.
  unfold split. induction 1 as [|ch ws Hch _ IH]; [done|].
  simpl. by rewrite Hch.
Qed.

(** A run of white space between two texts separates their tokens. *)
Lemma split_app_blank a ws b :
  ws ≠ [] → blank ws → split (a ++ ws ++ b) = split a ++ split b.
Proof.
  intros Hne Hws. destruct ws as [|ch ws]; [done|].
  inversion_clear Hws as [|? ? Hch Hws'].
  change ((ch :: ws) ++ b) with (ch :: (ws ++ b)).
  unfold split at 1. rewrite split_from_app_space by done.
  by rewrite split_blank_l.
Qed.

(** White space behind a text adds no token. *)
Lemma split_blank_r a ws : blank ws → split (a ++ ws) = split a.
Proof.
  intros Hws. destruct ws as [|ch ws]; [by rewrite app_nil_r|].
  rewrite <- (app_nil_r (ch :: ws)), split_app_blank by done.
  by rewrite split_nil, app_nil_r.
Qed.

Lemma split_token t : is_token t → split t = [t].
Proof. intros Ht. apply (split_join [t]). by constructor. Qed.

Lemma join_app sep ts1 ts2 :
  ts1 ≠ [] → ts2 ≠ [] → join sep (ts1 ++ ts2) = join sep ts1 ++ sep ++ join sep ts2.
Proof.
  intros H1 H2. induction ts1 as [|t ts1 IH]; [done|].
  destruct ts1 as [|t' ts1].
  - destruct ts2; [done|]. reflexivity.
  - change ((t :: t' :: ts1) ++ ts2) with (t :: t' :: (ts1 ++ ts2)).
    rewrite !join_cons.
    change (t' :: ts1 ++ ts2) with ((t' :: ts1) ++ ts2).
    rewrite IH by done. by rewrite <- !app_assoc.
Qed.

(** Joining texts that are joins themselves joins all their parts. *)
Lemma join_concat sep (tss : list (list str)) :
  Forall (λ ts, ts ≠ []) tss → join sep (map (join sep) tss) = join sep (concat tss).
Proof.
  induction 1 as [|ts tss Hts Htss IH]; [done|].
  destruct tss as [|ts' tss].
  - simpl. by rewrite app_nil_r.
  - inversion_clear Htss as [|? ? Hts' _].
    change (map (join sep) (ts :: ts' :: tss))
      with (join sep ts :: map (join sep) (ts' :: tss)).
    change (map (join sep) (ts' :: tss))
      with (join sep ts' :: map (join sep) tss) at 1.
    rewrite join_cons.
    change (join sep ts' :: map (join sep) tss)
      with (map (join sep) (ts' :: tss)).
    rewrite IH. change (concat (ts :: ts' :: tss)) with (ts ++ concat (ts' :: tss)).
    rewrite join_app; [done..|].
    simpl. by destruct ts'.
Qed.

End more_builtins.

(** * Further properties of the two loops *)

Section more_loops.
Implicit Types (o c k v : str) (l : list (str * str)) (m : gmap str str).

Lemma highlighted_list_same x : highlighted_list x x = split x.
Proof.
  rewrite highlighted_list_map.
  induction (split x) as [|t ts IH]; [done|].
  simpl. by rewrite fragment_same, IH.
Qed.

(** On an empty dict or on [m], the loop makes the same entries. *)
Lemma corrections_loop_union l : ∀ m,
  fold_left corrections_body l m = fold_left corrections_body l ∅ ∪ m.
Proof.
  induction l as [|[o c] l IH]; intros m; cbn [fold_left].
  - by rewrite (left_id_L ∅ (∪)).
  - rewrite (IH (corrections_body m (o, c))), (IH (corrections_body ∅ (o, c))).
    unfold corrections_body. destruct (str_ne o c).
    + rewrite (insert_union_singleton_l m), insert_empty.
      by rewrite (assoc_L (∪)).
    + by rewrite (right_id_L ∅ (∪)).
Qed.

Lemma corrections_loop_size l : ∀ m,
  size (fold_left corrections_body l m) ≤ size m + length l.
Proof.
  induction l as [|[o c] l IH]; intros m; cbn [fold_left length]; [lia|].
  etrans; [apply IH|]. unfold corrections_body.
  destruct (str_ne o c); [|lia].
  destruct (m !! o) eqn:E.
  - rewrite map_size_insert_Some by done. lia.
  - rewrite map_size_insert_None by done. lia.
Qed.

Lemma nonspace_literals :
  nonspace (s "<del") ∧ nonspace (s "style='color:red;'>") ∧ nonspace (s "</del>")
  ∧ nonspace (s "<span") ∧ nonspace (s "style='color:green;'>")
  ∧ nonspace (s "</span>").
Proof.
  repeat split; apply Forall_forall; intros ch Hch;
    repeat (apply elem_of_cons in Hch as [-> | Hch]; [reflexivity|]);
    by apply elem_of_nil in Hch.
Qed.

Lemma marked_join o c : marked o c = join (s " ") (marked_tokens o c).
Proof.
  unfold marked, marked_tokens, del_open, del_close_span_open, span_close.
  rewrite !join_cons. simpl join.
  change (s "<del style='color:red;'>")
    with (s "<del" ++ s " " ++ s "style='color:red;'>").
  change (s "</del> <span style='color:green;'>")
    with (s "</del>" ++ s " " ++ s "<span" ++ s " " ++ s "style='color:green;'>").
  by rewrite <- !app_assoc.
Qed.

Lemma marked_tokens_tokens o c :
  is_token o → is_token c → Forall is_token (marked_tokens o c).
Proof.
  intros [_ Ho] [_ Hc].
  destruct nonspace_literals as (H1 & H2 & H3 & H4 & H5 & H6).
  unfold marked_tokens. repeat apply Forall_cons_2; try apply Forall_nil_2.
  - split; [done | exact H1].
  - split; [done | by repeat apply Forall_app_2].
  - split; [done | exact H4].
  - split; [done | by repeat apply Forall_app_2].
Qed.

Lemma fragment_join p : fragment p = join (s " ") (fragment_tokens p).
Proof.
  unfold fragment, fragment_tokens. destruct (str_ne p.1 p.2); [|done].
  apply marked_join.
Qed.

Lemma fragment_tokens_tokens p :
  is_token p.1 → is_token p.2 → Forall is_token (fragment_tokens p).
Proof.
  intros H1 H2. unfold fragment_tokens. destruct (str_ne p.1 p.2).
  - by apply marked_tokens_tokens.
  - by constructor.
Qed.

Lemma fragment_tokens_nonempty p : fragment_tokens p ≠ [].
Proof. unfold fragment_tokens, marked_tokens. by destruct (str_ne p.1 p.2). Qed.

Lemma zip_split_tokens original corrected :
  Forall (λ p, is_token p.1 ∧ is_token p.2) (zip (split original) (split corrected)).
Proof.
  apply Forall_forall. intros [o c] Hin.
  pose proof (split_tokens original) as Ho. pose proof (split_tokens corrected) as Hc.
  rewrite Forall_forall in Ho, Hc. split; simpl.
  - apply Ho. by eapply elem_of_zip_l.
  - apply Hc. by eapply elem_of_zip_r.
Qed.

(** The result of [highlight_errors] as the join of the tokens of all its
    fragments, and those tokens as its split. *)
Lemma highlight_errors_tokens original corrected :
  highlight_errors original corrected
  = join (s " ") (concat (map fragment_tokens (zip (split original) (split corrected))))
  ∧ split (highlight_errors original corrected)
    = concat (map fragment_tokens (zip (split original) (split corrected))).
Proof.
  assert (E : highlight_errors original corrected
    = join (s " ") (concat (map fragment_tokens (zip (split original) (split corrected))))).
  { unfold highlight_errors. rewrite highlighted_list_map.
    rewrite <- join_concat.
    - f_equal. rewrite map_map. apply map_ext. intros p. apply fragment_join.
    - apply Forall_forall. intros ts (p & -> & _)%list_elem_of_fmap.
      apply fragment_tokens_nonempty. }
  split; [done|]. rewrite E. apply split_join.
  apply Forall_concat, Forall_forall.
  intros ts (p & -> & Hp)%list_elem_of_fmap.
  pose proof (zip_split_tokens original corrected) as Hz.
  rewrite Forall_forall in Hz. destruct (Hz p Hp).
  by apply fragment_tokens_tokens.
Qed.

End more_loops.

Section prefixes.

Lemma zip_agree (l1 : list str) : ∀ l2 : list str,
  (∀ i k v, zip l1 l2 !! i = Some (k, v) → k = v)
  ↔ take (length l1 `min` length l2) l1 = take (length l1 `min` length l2) l2.
Proof.
  induction l1 as [|a l1 IH]; intros [|b l2].
  - split; [done|]. intros _ i k v Hi. simpl in Hi. by rewrite lookup_nil in Hi.
  - split; [done|]. intros _ i k v Hi. simpl in Hi. by rewrite lookup_nil in Hi.
  - split; [done|]. intros _ i k v Hi. simpl in Hi. by rewrite lookup_nil in Hi.
  - cbn [length Nat.min take zip_with]. split.
    + intros H. f_equal; [by apply (H 0) | apply IH].
      intros i k v Hi. by apply (H (S i)).
    + intros [= -> Ht] [|i] k v Hi; simpl in Hi; [congruence|].
      by apply (proj2 (IH l2) Ht i).
Qed.

Lemma fragments_agree (l1 : list str) : ∀ l2 : list str,
  map fragment (zip l1 l2) = take (length l1 `min` length l2) l1
  ↔ take (length l1 `min` length l2) l1 = take (length l1 `min` length l2) l2.
Proof.
  induction l1 as [|a l1 IH]; intros [|b l2]; try done.
  cbn [length Nat.min take zip_with map]. split.
  - intros [= Hf Ht]. rewrite fragment_decide in Hf.
    destruct (decide (a = b)) as [->|_]; [|by apply marked_ne in Hf].
    f_equal. by apply IH.
  - intros [= -> Ht]. rewrite fragment_same. f_equal. by apply IH.
Qed.

Lemma corrections_empty_iff (l : list (str * str)) :
  fold_left corrections_body l ∅ = ∅ ↔ ∀ i k v, l !! i = Some (k, v) → k = v.
Proof.
  rewrite map_empty. split.
  - intros H i k v Hi. destruct (decide (k = v)) as [|Hne]; [done|].
    specialize (H k). apply eq_None_not_Some in H. destruct H.
    apply corrections_loop_dom. right. by exists i, v.
  - intros H k. apply eq_None_not_Some.
    intros [[? Hs] | (i & v & Hi & Hne)]%corrections_loop_dom.
    + by rewrite lookup_empty in Hs.
    + by apply Hne, (H i).
Qed.

End prefixes.

Section replaying.
Implicit Types (k v : str) (m : gmap str str).

Lemma length_fragment_tokens (l : list (str * str)) :
  length (concat (map fragment_tokens l))
  = length l + 3 * length (filter (λ p, p.1 ≠ p.2) l).
Proof.
  induction l as [|[o c] l IH]; [done|].
  cbn [map concat]. rewrite length_app, IH. unfold fragment_tokens; simpl.
  destruct (str_ne o c) eqn:E.
  - apply str_ne_true in E. rewrite filter_cons_True by done. simpl. lia.
  - apply str_ne_false in E. rewrite filter_cons_False by (simpl; tauto). simpl. lia.
Qed.


(** Where the paired tokens of the original are all different, a token
    maps to what faces it, or is no key when the same token faces it. *)
Lemma corrections_lookup_NoDup original corrected i k v :
  NoDup (take (paired original corrected) (split original)) →
  split original !! i = Some k → split corrected !! i = Some v →
  default k ((get_corrections original corrected).2 !! k) = v.
Proof.
  intros Hnd Ho Hc.
  assert (Hi : i < paired original corrected).
  { pose proof (lookup_lt_Some _ _ _ Ho). pose proof (lookup_lt_Some _ _ _ Hc).
    unfold paired. lia. }
  assert (Hsame : ∀ j v', zip (split original) (split corrected) !! j = Some (k, v')
                          → j = i ∧ v' = v).
  { intros j v' Hj.
    pose proof (lookup_lt_Some _ _ _ Hj) as Hlt. rewrite length_zip in Hlt.
    apply lookup_zip_Some in Hj as [Hjo Hjc].
    assert (j = i) as ->.
    { apply (NoDup_lookup _ j i k Hnd); by rewrite lookup_take_lt. }
    split; [done | congruence]. }
  destruct (decide (k = v)) as [<-|Hne].
  - destruct (_ !! k) as [v'|] eqn:E; [|done]. simpl.
    apply corrections_lookup in E as (j & Hj & Hne & _).
    by destruct (Hsame j v' Hj) as [_ ->].
  - assert (E : (get_corrections original corrected).2 !! k = Some v).
    { apply corrections_lookup. exists i. repeat split; [|done|].
      - by apply lookup_zip_Some.
      - intros j v' Hij Hj. destruct (Hsame j v' Hj) as [-> _]. lia. }
    by rewrite E.
Qed.

End replaying.

(** * Further properties of the helpers and of the handlers *)

(** X1: when the first parts of the two texts have equally many tokens,
    [highlight_errors] works part by part: the fragments of the two texts
    put together are the fragments of the first parts followed by those of
    the second parts, and the result is the two results with one space
    between them when neither part is without pairs. *)
Theorem highlight_errors_app o1 o2 c1 c2 ws1 ws2 :
  length (split o1) = length (split c1) →
  ws1 ≠ [] → blank ws1 → ws2 ≠ [] → blank ws2 →
  highlighted_list (o1 ++ ws1 ++ o2) (c1 ++ ws2 ++ c2)
  = highlighted_list o1 c1 ++ highlighted_list o2 c2
  ∧ (paired o1 c1 ≠ 0 → paired o2 c2 ≠ 0 →
     highlight_errors (o1 ++ ws1 ++ o2) (c1 ++ ws2 ++ c2)
     = highlight_errors o1 c1 ++ s " " ++ highlight_errors o2 c2).
Proof.
  intros Hlen Hn1 Hb1 Hn2 Hb2.
  assert (E : highlighted_list (o1 ++ ws1 ++ o2) (c1 ++ ws2 ++ c2)
              = highlighted_list o1 c1 ++ highlighted_list o2 c2).
  { rewrite !highlighted_list_map, !split_app_blank by done.
    rewrite zip_with_app by done. apply map_app. }
  split; [done|]. intros H1 H2. unfold highlight_errors. rewrite E.
  apply join_app.
  - intros E1. apply H1. by rewrite <- length_highlighted_list, E1.
  - intros E2. apply H2. by rewrite <- length_highlighted_list, E2.
Qed.

Lemma highlight_errors_app_witness :
  highlighted_list (s "teh cat" ++ s " " ++ s "sat") (s "the cat" ++ s "  " ++ s "sit")
  = highlighted_list (s "teh cat") (s "the cat") ++ highlighted_list (s "sat") (s "sit")
  ∧ (paired (s "teh cat") (s "the cat") ≠ 0 → paired (s "sat") (s "sit") ≠ 0 →
     highlight_errors (s "teh cat" ++ s " " ++ s "sat") (s "the cat" ++ s "  " ++ s "sit")
     = highlight_errors (s "teh cat") (s "the cat") ++ s " "
         ++ highlight_errors (s "sat") (s "sit")).
Proof.
  apply (highlight_errors_app (s "teh cat") (s "sat") (s "the cat") (s "sit")
           (s " ") (s "  ")).
  - vm_compute. reflexivity.
  - vm_compute. discriminate.
  - vm_compute. repeat constructor.
  - vm_compute. discriminate.
  - vm_compute. repeat constructor.
Defined.

(** X2: under the same alignment [get_corrections] works part by part too:
    the token list is the two token lists in a row, and the dict is the
    dict of the second parts completed by the entries of the first parts
    whose key the second parts do not change. *)
Theorem get_corrections_app o1 o2 c1 c2 ws1 ws2 :
  length (split o1) = length (split c1) →
  ws1 ≠ [] → blank ws1 → ws2 ≠ [] → blank ws2 →
  (get_corrections (o1 ++ ws1 ++ o2) (c1 ++ ws2 ++ c2)).1
  = (get_corrections o1 c1).1 ++ (get_corrections o2 c2).1
  ∧ (get_corrections (o1 ++ ws1 ++ o2) (c1 ++ ws2 ++ c2)).2
    = (get_corrections o2 c2).2 ∪ (get_corrections o1 c1).2.
Proof.
  intros Hlen Hn1 Hb1 Hn2 Hb2. unfold get_corrections; simpl.
  rewrite !split_app_blank by done. split; [done|].
  rewrite zip_with_app by done.
  rewrite fold_left_app. apply corrections_loop_union.
Qed.

Lemma get_corrections_app_witness :
  (get_corrections (s "a b" ++ s " " ++ s "a c") (s "x b" ++ s " " ++ s "y z")).1
  = (get_corrections (s "a b") (s "x b")).1 ++ (get_corrections (s "a c") (s "y z")).1
  ∧ (get_corrections (s "a b" ++ s " " ++ s "a c") (s "x b" ++ s " " ++ s "y z")).2
    = (get_corrections (s "a c") (s "y z")).2 ∪ (get_corrections (s "a b") (s "x b")).2.
Proof.
  apply (get_corrections_app (s "a b") (s "a c") (s "x b") (s "y z") (s " ") (s " ")).
  - vm_compute. reflexivity.
  - vm_compute. discriminate.
  - vm_compute. repeat constructor.
  - vm_compute. discriminate.
  - vm_compute. repeat constructor.
Defined.

(** X3: the kind and amount of white space in the two texts does not
    matter to either helper: white space around a text changes nothing,
    and neither does replacing every run of white space by one space. *)
Theorem helpers_ignore_white_space original corrected l1 r1 l2 r2 :
  blank l1 → blank r1 → blank l2 → blank r2 →
  highlight_errors (l1 ++ original ++ r1) (l2 ++ corrected ++ r2)
  = highlight_errors original corrected
  ∧ get_corrections (l1 ++ original ++ r1) (l2 ++ corrected ++ r2)
    = get_corrections original corrected
  ∧ highlight_errors (join (s " ") (split original)) (join (s " ") (split corrected))
    = highlight_errors original corrected
  ∧ get_corrections (join (s " ") (split original)) (join (s " ") (split corrected))
    = get_corrections original corrected.
Proof.
  intros Hl1 Hr1 Hl2 Hr2.
  unfold highlight_errors, highlighted_list, get_corrections.
  rewrite (split_blank_l l1), (split_blank_l l2) by done.
  rewrite (split_blank_r original), (split_blank_r corrected) by done.
  rewrite (split_join (split original)), (split_join (split corrected))
    by apply split_tokens.
  done.
Qed.

Lemma helpers_ignore_white_space_witness :
  highlight_errors (s "  " ++ s "teh  cat" ++ s " ") (s "" ++ s "the cat" ++ s "   ")
  = highlight_errors (s "teh  cat") (s "the cat")
  ∧ get_corrections (s "  " ++ s "teh  cat" ++ s " ") (s "" ++ s "the cat" ++ s "   ")
    = get_corrections (s "teh  cat") (s "the cat")
  ∧ highlight_errors (join (s " ") (split (s "teh  cat")))
                     (join (s " ") (split (s "the cat")))
    = highlight_errors (s "teh  cat") (s "the cat")
  ∧ get_corrections (join (s " ") (split (s "teh  cat")))
                    (join (s " ") (split (s "the cat")))
    = get_corrections (s "teh  cat") (s "the cat").
Proof.
  apply (helpers_ignore_white_space (s "teh  cat") (s "the cat")
           (s "  ") (s " ") (s "") (s "   "));
    vm_compute; repeat constructor.
Defined.

(** X4: the dict of [get_corrections] is empty exactly when the two token
    sequences agree on the positions they share, whatever tokens the longer
    one has beyond; and exactly then [highlight_errors] emits those shared
    tokens of the original and nothing marked. *)
Theorem no_corrections_iff original corrected :
  ((get_corrections original corrected).2 = ∅
   ↔ take (paired original corrected) (split original)
     = take (paired original corrected) (split corrected))
  ∧ (highlighted_list original corrected
       = take (paired original corrected) (split original)
     ↔ take (paired original corrected) (split original)
       = take (paired original corrected) (split corrected)).
Proof.
  split.
  - unfold get_corrections; simpl. rewrite corrections_empty_iff. apply zip_agree.
  - rewrite highlighted_list_map. apply fragments_agree.
Qed.

(** X5: every key of the dict of [get_corrections] is a token of the
    original text and every value a token of the corrected text: none is
    empty and none holds white space. *)
Theorem corrections_are_tokens original corrected k v :
  (get_corrections original corrected).2 !! k = Some v →
  k ∈ split original ∧ v ∈ split corrected ∧ is_token k ∧ is_token v.
Proof.
  intros (i & [Ho Hc]%lookup_zip_Some & _)%corrections_lookup.
  apply list_elem_of_lookup_2 in Ho, Hc.
  pose proof (split_tokens original) as Hto.
  pose proof (split_tokens corrected) as Htc.
  rewrite Forall_forall in Hto, Htc. auto.
Qed.

Lemma corrections_are_tokens_witness :
  s "teh" ∈ split (s "teh cat") ∧ s "the" ∈ split (s "the cat")
  ∧ is_token (s "teh") ∧ is_token (s "the").
Proof.
  apply (corrections_are_tokens (s "teh cat") (s "the cat") (s "teh") (s "the")).
  vm_compute. reflexivity.
Defined.

(** X6: the dict of [get_corrections] has at most one entry per paired
    position: its size is at most the shorter token count. *)
Theorem corrections_size original corrected :
  size (get_corrections original corrected).2
  ≤ length (split original) `min` length (split corrected).
Proof.
  unfold get_corrections; simpl.
  etrans; [apply corrections_loop_size|].
  rewrite map_size_empty, length_zip. lia.
Qed.

(** X7: when the paired tokens of the original are all different,
    replaying the dict of [get_corrections] on them gives the paired tokens
    of the corrected text back; with equally many tokens on both sides it
    turns the whole original token sequence into the corrected one. *)
Theorem replay_corrections original corrected :
  NoDup (take (paired original corrected) (split original)) →
  replay (get_corrections original corrected).2
         (take (paired original corrected) (split original))
  = take (paired original corrected) (split corrected)
  ∧ (length (split original) = length (split corrected) →
     replay (get_corrections original corrected).2 (split original)
     = split corrected).
Proof.
  intros Hnd.
  assert (E : replay (get_corrections original corrected).2
                     (take (paired original corrected) (split original))
              = take (paired original corrected) (split corrected)).
  { apply list_eq. intros i. unfold replay. rewrite list_lookup_fmap.
    destruct (decide (i < paired original corrected)) as [Hi|Hi].
    - rewrite !lookup_take_lt by done.
      destruct (lookup_lt_is_Some_2 (split original) i) as [k Hk];
        [unfold paired in Hi; lia|].
      destruct (lookup_lt_is_Some_2 (split corrected) i) as [v Hv];
        [unfold paired in Hi; lia|].
      rewrite Hk, Hv. simpl. f_equal.
      by apply (corrections_lookup_NoDup original corrected i).
    - by rewrite !lookup_take_ge by lia. }
  split; [done|]. intros Hlen.
  unfold paired in E. rewrite <- Hlen, Nat.min_id in E.
  rewrite firstn_all in E. rewrite Hlen, firstn_all in E. done.
Qed.

Lemma replay_corrections_witness :
  replay (get_corrections (s "teh cat is") (s "the cat was here")).2
         (take (paired (s "teh cat is") (s "the cat was here")) (split (s "teh cat is")))
  = take (paired (s "teh cat is") (s "the cat was here")) (split (s "the cat was here"))
  ∧ (length (split (s "teh cat is")) = length (split (s "the cat was here")) →
     replay (get_corrections (s "teh cat is") (s "the cat was here")).2
            (split (s "teh cat is"))
     = split (s "the cat was here")).
Proof.
  apply (replay_corrections (s "teh cat is") (s "the cat was here")).
  apply (bool_decide_unpack _). vm_compute. exact I.
Defined.

(** X8: [highlight_errors] puts the tokens into its markup as they are, so
    its result does not tell a change from a text that holds the markup
    already: for two different tokens [o] and [c], the unchanged text that
    reads like the marked fragment of [o] and [c] gives the same result as
    the change of [o] into [c]. *)
Theorem highlight_errors_ambiguous o c :
  is_token o → is_token c → o ≠ c →
  highlight_errors (marked o c) (marked o c) = highlight_errors o c
  ∧ highlight_errors o c = marked o c.
Proof.
  intros Ho Hc Hne.
  assert (E : highlight_errors o c = marked o c).
  { unfold highlight_errors. rewrite highlighted_list_map.
    rewrite (split_token o), (split_token c) by done. simpl.
    by rewrite fragment_diff. }
  split; [|done]. rewrite E.
  unfold highlight_errors. rewrite highlighted_list_same, marked_join.
  by rewrite split_join by by apply marked_tokens_tokens.
Qed.

Lemma highlight_errors_ambiguous_witness :
  highlight_errors (marked (s "teh") (s "the")) (marked (s "teh") (s "the"))
  = highlight_errors (s "teh") (s "the")
  ∧ highlight_errors (s "teh") (s "the") = marked (s "teh") (s "the").
Proof.
  apply (highlight_errors_ambiguous (s "teh") (s "the")).
  - split; [vm_compute; discriminate | vm_compute; repeat constructor].
  - split; [vm_compute; discriminate | vm_compute; repeat constructor].
  - vm_compute. discriminate.
Defined.

(** X9: the result of [highlight_errors] is in normal form: it has no
    white space but single spaces between its tokens, so highlighting it
    against itself gives it back; and it has one token per paired position
    and three more per changed position. *)
Theorem highlight_errors_normal original corrected :
  join (s " ") (split (highlight_errors original corrected))
  = highlight_errors original corrected
  ∧ highlight_errors (highlight_errors original corrected)
                     (highlight_errors original corrected)
    = highlight_errors original corrected
  ∧ length (split (highlight_errors original corrected))
    = paired original corrected
      + 3 * length (filter (λ p, p.1 ≠ p.2) (zip (split original) (split corrected))).
Proof.
  destruct (highlight_errors_tokens original corrected) as [Hj Hs].
  assert (E : join (s " ") (split (highlight_errors original corrected))
              = highlight_errors original corrected).
  { by rewrite Hs, <- Hj. }
  split; [done|]. split.
  - unfold highlight_errors at 1. by rewrite highlighted_list_same.
  - rewrite Hs, length_fragment_tokens, length_zip. done.
Qed.

(** X10: when the model chosen by the language code answers with a text
    that has the tokens of the request (the text itself, or the text with
    other white space), [correct_text] answers with that text as it came
    and an empty dict, and [post_home] shows the tokens of the request
    joined by single spaces, with nothing marked, besides the text as it
    was sent. *)
Theorem handlers_on_unchanged_text
    (english : str → option str) (mbart : str → str → option str)
    (request : CorrectionRequest) (corrected : str) :
  (if bool_decide (lang_code request = s "en")
   then english (text request)
   else mbart (text request) (lang_code request)) = Some corrected →
  split corrected = split (text request) →
  correct_text english mbart request
  = Some {| corrected_text := corrected; corrections := ∅ |}
  ∧ post_home english mbart (text request) (lang_code request)
    = Some {| result := Some (join (s " ") (split (text request)));
              shown_text := Some (text request) |}.
Proof.
  intros Hmodel Htokens. unfold correct_text, post_home.
  rewrite Hmodel; simpl. split.
  - do 2 f_equal. rewrite Htokens. apply corrections_empty_iff.
    intros i k v [Hk Hv]%lookup_zip_Some. congruence.
  - do 3 f_equal. unfold highlight_errors, highlighted_list. rewrite Htokens.
    fold (highlighted_list (text request) (text request)).
    by rewrite highlighted_list_same.
Qed.

Lemma handlers_on_unchanged_text_witness :
  correct_text (λ t, Some (s " " ++ t)) (λ _ _, None)
               {| text := s "a  b"; lang_code := s "en" |}
  = Some {| corrected_text := s " a  b"; corrections := ∅ |}
  ∧ post_home (λ t, Some (s " " ++ t)) (λ _ _, None) (s "a  b") (s "en")
    = Some {| result := Some (join (s " ") (split (s "a  b")));
              shown_text := Some (s "a  b") |}.
Proof.
  apply (handlers_on_unchanged_text (λ t, Some (s " " ++ t)) (λ _ _, None)
           {| text := s "a  b"; lang_code := s "en" |} (s " a  b")).
  - vm_compute. reflexivity.
  - vm_compute. reflexivity.
Defined.

